(** * The [short] character driver and the [sram] header, embedded in Rocq

    Sources: [short/short.c] and [sram/sram.h].

    Integers are modelled as [Z] with the wrap-around of their C type
    written out: [unsigned long] is 64 bits wide (LP64 Linux), [int] is a
    32-bit two's complement number.  Kernel items the two files use but do
    not define ([PAGE_SIZE], [iminor], [short_i_fops], [ENODEV]) are
    parameters of the sections that need them. *)

From Stdlib Require Import ZArith Lia Bool List String.
Import ListNotations.

Local Open Scope Z_scope.

(** ** Machine integers *)

Module Machine.

Definition ULONG_BITS : Z := 64.
Definition ULONG_MOD : Z := 2 ^ ULONG_BITS.
Definition INT_BITS : Z := 32.
Definition INT_MOD : Z := 2 ^ INT_BITS.
Definition INT_MAX : Z := 2 ^ (INT_BITS - 1) - 1.
Definition INT_MIN : Z := - 2 ^ (INT_BITS - 1).

(** Conversion to [unsigned long]: reduction modulo 2^64.  On an [int]
    operand this is the sign-extending conversion of the usual arithmetic
    conversions. *)
Definition to_ulong (z : Z) : Z := z mod ULONG_MOD.

(** Conversion to [int]: the representative in [INT_MIN, INT_MAX]. *)
Definition to_int (z : Z) : Z := (z - INT_MIN) mod INT_MOD + INT_MIN.

(** C truth value of an integer expression. *)
Definition c_true (z : Z) : bool := negb (z =? 0).

End Machine.
Import Machine.

(** ** short.c: the ring-buffer cursors *)

Module Short.

(** The three module-scope words of the interrupt buffer (short.c 87-89):
    the address of the page and the two cursors, all absolute
    addresses. *)
Record ring := mkRing {
  short_buffer : Z;
  short_head : Z;
  short_tail : Z
}.

(** The [index] argument of [short_incr_bp] is the address of one of the
    two cursors. *)
Inductive cursor : Type := Head | Tail.

Definition load (index : cursor) (st : ring) : Z :=
  match index with
  | Head => short_head st
  | Tail => short_tail st
  end.

Definition store (index : cursor) (v : Z) (st : ring) : ring :=
  match index with
  | Head => mkRing (short_buffer st) v (short_tail st)
  | Tail => mkRing (short_buffer st) (short_head st) v
  end.

Section Cursor.

(** The kernel's page size, from <asm/page.h>. *)
Variable PAGE_SIZE : Z.

(** short.c 106-111.
<<
  unsigned long new = *index + delta;
  barrier();
  *index = (new >= (short_buffer + PAGE_SIZE)) ? short_buffer : new;
>>
*)
Definition short_incr_bp (index : cursor) (delta : Z) (st : ring) : ring :=
  let new := to_ulong (load index st + to_ulong delta) in
  store index
    (if new >=? to_ulong (short_buffer st + PAGE_SIZE)
     then short_buffer st
     else new)
    st.

(** A cursor as an offset into the page. *)
Definition cursor_rel (index : cursor) (st : ring) : Z :=
  load index st - short_buffer st.

Definition in_page (st : ring) (a : Z) : Prop :=
  short_buffer st <= a < short_buffer st + PAGE_SIZE.

Definition cursors_in_page (st : ring) : Prop :=
  in_page st (short_head st) /\ in_page st (short_tail st).

(** The page is a real allocation: its address is an [unsigned long]
    and no [int] offset from inside it runs past the end of the
    address space. *)
Definition page_mapped (st : ring) : Prop :=
  0 <= short_buffer st /\
  short_buffer st + PAGE_SIZE + INT_MAX < ULONG_MOD.

(** A run of cursor advances, as issued by the producer and the
    consumer in any interleaving. *)
Fixpoint advances (steps : list (cursor * Z)) (st : ring) : ring :=
  match steps with
  | [] => st
  | (index, delta) :: rest => advances rest (short_incr_bp index delta st)
  end.

End Cursor.

(** The steps of a run that advance a given cursor: the producer's are
    those on [Head], the consumer's those on [Tail]. *)
Definition cursor_eqb (i j : cursor) : bool :=
  match i, j with
  | Head, Head | Tail, Tail => true
  | _, _ => false
  end.

Definition steps_on (index : cursor) (steps : list (cursor * Z))
  : list (cursor * Z) :=
  filter (fun s => cursor_eqb (fst s) index) steps.

(** short.c 47. *)
Definition SHORT_NR_PORTS : Z := 8.

(** *** Opening and releasing a device node *)

Section Files.

(** Kernel types and helpers the driver only uses: the inode with its
    minor number ([iminor], <linux/fs.h>), the operation tables, and
    the table of the interrupt device, which short.c 141 declares
    [extern]. *)
Variable inode : Type.
Variable iminor : inode -> Z.
Variable file_operations : Type.
Variable short_i_fops : file_operations.

(** The open file: its operation table and its flags. *)
Record file := mkFile {
  f_op : file_operations;
  f_flags : Z
}.

(** short.c 139-154.  The result is the return value and the file
    after the call. *)
Definition short_open (i : inode) (filp : file) : Z * file :=
  let filp :=
    if c_true (Z.land (iminor i) 0x80)
    then mkFile short_i_fops (f_flags filp)
    else filp in
  (0, filp).

(** short.c 157-160. *)
Definition short_release (i : inode) (filp : file) : Z * file :=
  (0, filp).

(** *** The port-oriented device *)

(** The locals [do_short_read] sets up (short.c 172-184); the body of
    the function stops after them. *)
Record read_locals := mkLocals {
  retval : Z;
  minor : Z;
  port : Z;
  address : Z;
  mode : Z
}.

Definition do_short_read (short_base : Z) (i : inode) (count : Z)
  : read_locals :=
  let retval := to_int count in
  let minor := to_int (iminor i) in
  let port := to_ulong (short_base + to_ulong (Z.land minor 0x0f)) in
  let address := to_ulong (short_base + to_ulong (to_int (minor * 0x0f))) in
  let mode := Z.shiftr (Z.land minor 0x70) 4 in
  mkLocals retval minor port address mode.

End Files.

Arguments mkFile {file_operations} f_op f_flags.
Arguments f_op {file_operations} f.
Arguments f_flags {file_operations} f.
Arguments short_open {inode} iminor {file_operations} short_i_fops i filp.
Arguments short_release {inode file_operations} i filp.
Arguments do_short_read {inode} iminor short_base i count.

(** short.c 166. *)
Inductive short_modes : Type :=
| SHORT_DEFAULT
| SHORT_PAUSE
| SHORT_STRING
| SHORT_MEMORY.

Definition short_modes_val (m : short_modes) : Z :=
  match m with
  | SHORT_DEFAULT => 0
  | SHORT_PAUSE => 1
  | SHORT_STRING => 2
  | SHORT_MEMORY => 3
  end.

Definition short_modes_of_Z (z : Z) : option short_modes :=
  if z =? 0 then Some SHORT_DEFAULT
  else if z =? 1 then Some SHORT_PAUSE
  else if z =? 2 then Some SHORT_STRING
  else if z =? 3 then Some SHORT_MEMORY
  else None.

(** *** Load-time parameters (short.c 53-80) *)

Record module_params := mkParams {
  major : Z;
  use_mem : Z;
  base : Z;
  irq : Z;
  probe : Z;
  wq : Z;
  tasklet : Z;
  share : Z
}.

(** The static initialisers. *)
Definition initial_params : module_params :=
  {| major := 0; use_mem := 0; base := 0x378; irq := -1;
     probe := 0; wq := 0; tasklet := 0; share := 0 |}.

(** The two working copies (short.c 62 and 67). *)
Definition initial_short_base : Z := 0.
Definition initial_short_irq : Z := -1.

(** [module_param(name, type, 0)]: a [name=value] argument given at load
    time overwrites the variable of that name; a name the module does not
    declare touches none of them. *)
Definition module_param (name : string) (v : Z) (p : module_params)
  : module_params :=
  let set := String.eqb name in
  if set "major"%string then
    mkParams (to_int v) (use_mem p) (base p) (irq p) (probe p) (wq p) (tasklet p) (share p)
  else if set "use_mem"%string then
    mkParams (major p) (to_int v) (base p) (irq p) (probe p) (wq p) (tasklet p) (share p)
  else if set "base"%string then
    mkParams (major p) (use_mem p) (to_ulong v) (irq p) (probe p) (wq p) (tasklet p) (share p)
  else if set "irq"%string then
    mkParams (major p) (use_mem p) (base p) (to_int v) (probe p) (wq p) (tasklet p) (share p)
  else if set "probe"%string then
    mkParams (major p) (use_mem p) (base p) (irq p) (to_int v) (wq p) (tasklet p) (share p)
  else if set "wq"%string then
    mkParams (major p) (use_mem p) (base p) (irq p) (probe p) (to_int v) (tasklet p) (share p)
  else if set "tasklet"%string then
    mkParams (major p) (use_mem p) (base p) (irq p) (probe p) (wq p) (to_int v) (share p)
  else if set "share"%string then
    mkParams (major p) (use_mem p) (base p) (irq p) (probe p) (wq p) (tasklet p) (to_int v)
  else p.

Definition load_params (args : list (string * Z)) : module_params :=
  fold_left (fun p a => module_param (fst a) (snd a) p) args initial_params.

End Short.

(** ** sram.h *)

Module Sram.

(** Pointers to kernel objects are kept as addresses. *)
Definition ptr : Type := Z.

(** sram.h 7-16. *)
Record sram_dev := mkDev {
  dev : ptr;
  virt_base : ptr;
  dev_pool : ptr;
  clk : ptr;
  partition : ptr;
  partitions : Z
}.

(** sram.h 18-25. *)
Record sram_partition := mkPartition {
  base : ptr;
  pool : ptr;
  battr : ptr;
  lock : Z;
  part_list : ptr
}.

(** sram.h 27-35. *)
Record sram_reserve := mkReserve {
  list : ptr;
  start : Z;
  size : Z;
  export : bool;
  reserve_pool : bool;
  protect_exec : bool;
  label : string
}.

Section ProtectExec.

(** [ENODEV] comes from <linux/errno.h>. *)
Variable ENODEV : Z.

(** Whether the kernel was configured with [CONFIG_SRAM_EXEC], and the
    two functions of sram-exec.c that sram.h 43-45 declares in that
    case. *)
Variable CONFIG_SRAM_EXEC : bool.
Variable sram_exec_check :
  sram_dev -> sram_reserve -> sram_partition ->
  Z * (sram_dev * sram_reserve * sram_partition).
Variable sram_exec_add : sram_partition -> Z * sram_partition.

(** sram.h 42-53.  The result is the return value and the three
    objects after the call. *)
Definition sram_check_protect_exec
    (sram : sram_dev) (block : sram_reserve) (part : sram_partition)
  : Z * (sram_dev * sram_reserve * sram_partition) :=
  if CONFIG_SRAM_EXEC
  then sram_exec_check sram block part
  else (- ENODEV, (sram, block, part)).

(** sram.h 45, 55-58. *)
Definition sram_add_protect_exec (part : sram_partition)
  : Z * sram_partition :=
  if CONFIG_SRAM_EXEC
  then sram_exec_add part
  else (- ENODEV, part).

End ProtectExec.

End Sram.

(** * Properties *)

(** ** Machine integers *)

Module MachineFacts.

Lemma ULONG_MOD_eq : ULONG_MOD = 18446744073709551616.
Proof. reflexivity. Qed.

Lemma INT_MAX_eq : INT_MAX = 2147483647.
Proof. reflexivity. Qed.

Lemma INT_MIN_eq : INT_MIN = -2147483648.
Proof. reflexivity. Qed.

Lemma INT_MOD_eq : INT_MOD = 4294967296.
Proof. reflexivity. Qed.

Lemma to_ulong_small z : 0 <= z < ULONG_MOD -> to_ulong z = z.
Proof. intros Hz. unfold to_ulong. now apply Z.mod_small. Qed.

Lemma to_ulong_range z : 0 <= to_ulong z < ULONG_MOD.
Proof. unfold to_ulong. apply Z.mod_pos_bound. now rewrite ULONG_MOD_eq. Qed.

Lemma to_ulong_add_r a b : to_ulong (a + to_ulong b) = to_ulong (a + b).
Proof. unfold to_ulong. now rewrite Zplus_mod_idemp_r. Qed.

Lemma to_int_small z : INT_MIN <= z <= INT_MAX -> to_int z = z.
Proof.
  intros Hz. unfold to_int.
  rewrite Z.mod_small; rewrite ?INT_MIN_eq, ?INT_MOD_eq, ?INT_MAX_eq in *; lia.
Qed.


(** [to_int] only moves a number by a multiple of 2^32. *)
Lemma to_int_congr z : exists k, to_int z = z + k * INT_MOD.
Proof.
  exists (- ((z - INT_MIN) / INT_MOD)). unfold to_int.
  rewrite Z.mod_eq by (now rewrite INT_MOD_eq). lia.
Qed.

(** Hence it keeps every residue modulo a divisor of 2^32. *)
Lemma to_int_mod z d : 0 < d -> (d | INT_MOD) -> to_int z mod d = z mod d.
Proof.
  intros Hd [q Hq]. destruct (to_int_congr z) as [k ->].
  rewrite Hq, Z.mul_assoc. apply Z_mod_plus_full.
Qed.

Lemma c_true_spec z : c_true z = true <-> z <> 0.
Proof.
  unfold c_true. rewrite negb_true_iff, Z.eqb_neq. tauto.
Qed.

End MachineFacts.
Import MachineFacts.

(** ** The cursors of the interrupt buffer *)

Module CursorFacts.
Import Short.

Lemma load_store index v st : load index (store index v st) = v.
Proof. now destruct index. Qed.

Lemma buffer_store index v st : short_buffer (store index v st) = short_buffer st.
Proof. now destruct index. Qed.

Lemma load_store_other i j v st : i <> j -> load i (store j v st) = load i st.
Proof. destruct i, j; simpl; congruence. Qed.

Section WithPage.

Variable PAGE_SIZE : Z.

Lemma short_incr_bp_buffer index delta st :
  short_buffer (short_incr_bp PAGE_SIZE index delta st) = short_buffer st.
Proof. unfold short_incr_bp. apply buffer_store. Qed.

Lemma short_incr_bp_other i index delta st :
  i <> index -> load i (short_incr_bp PAGE_SIZE index delta st) = load i st.
Proof. intros Hne. unfold short_incr_bp. now apply load_store_other. Qed.

(** The value a cursor holds after an advance, when nothing wraps in
    the address arithmetic. *)
Lemma short_incr_bp_load index delta st :
  page_mapped PAGE_SIZE st ->
  in_page PAGE_SIZE st (load index st) ->
  0 <= delta <= INT_MAX ->
  load index (short_incr_bp PAGE_SIZE index delta st) =
    if load index st + delta >=? short_buffer st + PAGE_SIZE
    then short_buffer st
    else load index st + delta.
Proof.
  intros [Hb Htop] [Hlo Hhi] Hd.
  unfold short_incr_bp. rewrite load_store, to_ulong_add_r.
  rewrite ULONG_MOD_eq, INT_MAX_eq in *.
  rewrite !to_ulong_small by (rewrite ULONG_MOD_eq; lia).
  reflexivity.
Qed.

Lemma short_incr_bp_rel index delta st :
  page_mapped PAGE_SIZE st ->
  0 <= cursor_rel index st < PAGE_SIZE ->
  0 <= delta <= INT_MAX ->
  cursor_rel index (short_incr_bp PAGE_SIZE index delta st) =
    if cursor_rel index st + delta >=? PAGE_SIZE then 0 else cursor_rel index st + delta.
Proof.
  intros Hm Hr Hd. unfold cursor_rel in *.
  rewrite short_incr_bp_buffer, short_incr_bp_load
    by (unfold in_page; auto; lia).
  destruct (Z.geb_spec (load index st + delta) (short_buffer st + PAGE_SIZE));
    destruct (Z.geb_spec (load index st - short_buffer st + delta) PAGE_SIZE);
    lia.
Qed.

Lemma short_incr_bp_keeps index delta st :
  page_mapped PAGE_SIZE st ->
  in_page PAGE_SIZE st (load index st) ->
  0 <= delta <= INT_MAX ->
  in_page PAGE_SIZE st (load index (short_incr_bp PAGE_SIZE index delta st)).
Proof.
  intros Hm Hin Hd. rewrite short_incr_bp_load by assumption.
  destruct Hin as [Hlo Hhi].
  unfold in_page.
  destruct (Z.geb_spec (load index st + delta) (short_buffer st + PAGE_SIZE));
    lia.
Qed.

Lemma in_page_incr index delta st a :
  in_page PAGE_SIZE (short_incr_bp PAGE_SIZE index delta st) a <-> in_page PAGE_SIZE st a.
Proof. unfold in_page. now rewrite short_incr_bp_buffer. Qed.

Lemma page_mapped_incr index delta st :
  page_mapped PAGE_SIZE (short_incr_bp PAGE_SIZE index delta st) <-> page_mapped PAGE_SIZE st.
Proof. unfold page_mapped. now rewrite short_incr_bp_buffer. Qed.

Lemma cursors_in_page_alt st :
  cursors_in_page PAGE_SIZE st <-> forall i, in_page PAGE_SIZE st (load i st).
Proof.
  unfold cursors_in_page. split.
  - intros [Hh Ht] [|]; assumption.
  - intros H. split; [apply (H Head) | apply (H Tail)].
Qed.

Lemma cursor_eq_dec (i j : cursor) : {i = j} + {i <> j}.
Proof. decide equality. Qed.

Lemma short_incr_bp_invariant index delta st :
  page_mapped PAGE_SIZE st ->
  cursors_in_page PAGE_SIZE st ->
  0 <= delta <= INT_MAX ->
  cursors_in_page PAGE_SIZE (short_incr_bp PAGE_SIZE index delta st).
Proof.
  intros Hm Hinv Hd. rewrite cursors_in_page_alt in *. intros i.
  apply in_page_incr.
  destruct (cursor_eq_dec i index) as [-> | Hne].
  - now apply short_incr_bp_keeps.
  - rewrite short_incr_bp_other by assumption. apply Hinv.
Qed.

(** The invariant survives any run of advances whose deltas are
    non-negative [int]s. *)
Lemma advances_invariant steps : forall st,
  page_mapped PAGE_SIZE st ->
  cursors_in_page PAGE_SIZE st ->
  Forall (fun s => 0 <= snd s <= INT_MAX) steps ->
  cursors_in_page PAGE_SIZE (advances PAGE_SIZE steps st).
Proof.
  induction steps as [| [index delta] rest IH]; intros st Hm Hinv Hall.
  - exact Hinv.
  - inversion Hall as [| s l Hd Hrest]; subst. simpl in *.
    apply IH.
    + now apply page_mapped_incr.
    + now apply short_incr_bp_invariant.
    + assumption.
Qed.

End WithPage.

(** [page_mapped] is what keeps the sum at short.c 108 from wrapping: for
    a page in the last two pages of the address space and the largest
    [int] delta, the sum wraps to a small number, the comparison fails and
    that number is stored. *)
Example short_incr_bp_wraps_at_top :
  let st := mkRing (ULONG_MOD - 8192) (ULONG_MOD - 8192) (ULONG_MOD - 8192) in
  cursors_in_page 4096 st /\
  ~ page_mapped 4096 st /\
  short_head (short_incr_bp 4096 Head INT_MAX st) = INT_MAX - 8192.
Proof.
  vm_compute. repeat split; try discriminate.
  intros [_ H]. discriminate H.
Qed.

(** Spec scenario 3, producer side: head at offset 4090 of a 4096-byte
    page, a record of 10 bytes. *)
Example short_incr_bp_scenario_wrap :
  short_incr_bp 4096 Head 10 (mkRing 0 4090 4090) = mkRing 0 0 4090.
Proof. reflexivity. Qed.

(** An advance that stays inside the page is a plain addition. *)
Example short_incr_bp_scenario_plain :
  short_incr_bp 4096 Tail 64 (mkRing 0 140 0) = mkRing 0 140 64.
Proof. reflexivity. Qed.

End CursorFacts.

Module CursorSpec.
Import Short CursorFacts.

(** C1, as stated, fails: with a 4096-byte page at address 0 and the
    head at offset 4090, advancing by 10 stores offset 0, whereas
    (4090 + 10) mod 4096 is 4. *)
Lemma short_incr_bp_not_modular :
  let st := mkRing 0 4090 4090 in
  page_mapped 4096 st /\
  0 <= cursor_rel Head st < 4096 /\
  0 <= 10 <= INT_MAX /\
  cursor_rel Head (short_incr_bp 4096 Head 10 st) = 0 /\
  (cursor_rel Head st + 10) mod 4096 = 4 /\
  cursor_rel Head (short_incr_bp 4096 Head 10 st)
    <> (cursor_rel Head st + 10) mod 4096.
Proof. vm_compute. intuition discriminate. Qed.

(** C1 (amended): for a cursor at offset [c] in [0, CAP) of a mapped page
    and a non-negative [int] delta, [short_incr_bp] stores offset
    [c + delta] when [c + delta < CAP] and offset 0 when
    [c + delta >= CAP]; the stored offset equals [(c + delta) mod CAP]
    exactly when [c + delta < CAP] or [c + delta] is a multiple of
    [CAP]. *)
Theorem short_incr_bp_snaps_to_base PAGE_SIZE index delta st :
  page_mapped PAGE_SIZE st ->
  0 <= cursor_rel index st < PAGE_SIZE ->
  0 <= delta <= INT_MAX ->
  let c := cursor_rel index st in
  let c' := cursor_rel index (short_incr_bp PAGE_SIZE index delta st) in
  (c + delta < PAGE_SIZE -> c' = c + delta) /\
  (c + delta >= PAGE_SIZE -> c' = 0) /\
  (c' = (c + delta) mod PAGE_SIZE <->
     c + delta < PAGE_SIZE \/ (c + delta) mod PAGE_SIZE = 0).
Proof.
  intros Hm Hc Hd c c'. subst c c'.
  rewrite short_incr_bp_rel by assumption.
  destruct (Z.geb_spec (cursor_rel index st + delta) PAGE_SIZE) as [Hge | Hlt].
  - split; [lia |]. split; [reflexivity |]. split.
    + intros Heq. right. now symmetry.
    + intros [Hlt | Hz]; [lia | now symmetry].
  - split; [reflexivity |]. split; [lia |]. split.
    + intros _. now left.
    + intros _. symmetry. apply Z.mod_small. lia.
Qed.

Lemma short_incr_bp_snaps_to_base_witness :
  let st := mkRing 0 4090 100 in
  let c' := cursor_rel Head (short_incr_bp 4096 Head 10 st) in
  (4090 + 10 < 4096 -> c' = 4090 + 10) /\
  (4090 + 10 >= 4096 -> c' = 0) /\
  (c' = (4090 + 10) mod 4096 <->
     4090 + 10 < 4096 \/ (4090 + 10) mod 4096 = 0).
Proof.
  apply (short_incr_bp_snaps_to_base 4096 Head 10 (mkRing 0 4090 100));
    vm_compute; intuition discriminate.
Defined.

(** C2, as stated, fails: for a 4096-byte page three pages below the end
    of the 64-bit address space, with both cursors at the start of the
    page, advancing the head by 12288 makes the sum at short.c 108 wrap to
    0, which is below the end of the page, so 0 is stored and the head is
    no longer in [short_buffer, short_buffer + PAGE_SIZE). *)
Lemma short_incr_bp_leaves_page_at_top :
  let st := mkRing (ULONG_MOD - 12288) (ULONG_MOD - 12288) (ULONG_MOD - 12288) in
  let st' := short_incr_bp 4096 Head 12288 st in
  0 <= short_buffer st /\
  short_buffer st + 4096 <= ULONG_MOD /\
  cursors_in_page 4096 st /\
  0 <= 12288 <= INT_MAX /\
  short_head st' = 0 /\
  short_buffer st' = ULONG_MOD - 12288 /\
  ~ in_page 4096 st' (load Head st') /\
  ~ 0 <= cursor_rel Head st' < 4096.
Proof.
  vm_compute. repeat split; try discriminate.
  - intros [H _]. now apply H.
  - intros [H _]. now apply H.
Qed.

(** C2 (amended): in a mapped page, that is one with
    [0 <= short_buffer] and [short_buffer + PAGE_SIZE + INT_MAX < 2^64], a
    cursor that lies in [short_buffer, short_buffer + PAGE_SIZE) still
    lies there after [short_incr_bp] advanced it by a non-negative [int]
    delta; as offsets, [0 <= head < CAP] and [0 <= tail < CAP] are kept by
    every advance. *)
Theorem short_incr_bp_stays_in_page PAGE_SIZE index delta st :
  page_mapped PAGE_SIZE st ->
  in_page PAGE_SIZE st (load index st) ->
  0 <= delta <= INT_MAX ->
  let st' := short_incr_bp PAGE_SIZE index delta st in
  short_buffer st' = short_buffer st /\
  in_page PAGE_SIZE st' (load index st') /\
  0 <= cursor_rel index st' < PAGE_SIZE /\
  (cursors_in_page PAGE_SIZE st ->
   cursors_in_page PAGE_SIZE st' /\
   0 <= cursor_rel Head st' < PAGE_SIZE /\
   0 <= cursor_rel Tail st' < PAGE_SIZE).
Proof.
  intros Hm Hin Hd st'.
  assert (Hb : short_buffer st' = short_buffer st)
    by apply short_incr_bp_buffer.
  assert (Hk : in_page PAGE_SIZE st' (load index st'))
    by (apply in_page_incr; now apply short_incr_bp_keeps).
  split; [exact Hb |]. split; [exact Hk |]. split.
  - unfold cursor_rel, in_page in *. lia.
  - intros Hinv.
    assert (Hinv' : cursors_in_page PAGE_SIZE st')
      by now apply short_incr_bp_invariant.
    split; [exact Hinv' |].
    destruct Hinv' as [Hh Ht]. unfold cursor_rel, in_page in *. simpl. lia.
Qed.

Lemma short_incr_bp_stays_in_page_witness :
  let st := mkRing 18446612682070208512 18446612682070212602
                   18446612682070208612 in
  let st' := short_incr_bp 4096 Head 10 st in
  st' = mkRing 18446612682070208512 18446612682070208512
               18446612682070208612 /\
  cursors_in_page 4096 st'.
Proof.
  pose proof (short_incr_bp_stays_in_page 4096 Head 10
                (mkRing 18446612682070208512 18446612682070212602
                        18446612682070208612)) as H.
  split; [reflexivity |].
  apply H; vm_compute; intuition discriminate.
Defined.

End CursorSpec.

(** ** Minor-number decoding *)

Module MinorFacts.

(** Masking with [0x80] tests bit 7. *)
Lemma land_0x80 m : Z.land m 0x80 = if Z.testbit m 7 then 0x80 else 0.
Proof.
  apply Z.bits_inj'. intros n Hn.
  rewrite Z.land_spec.
  change 0x80 with (2 ^ 7). rewrite Z.pow2_bits_eqb by lia.
  destruct (Z.eqb_spec 7 n) as [<- | Hne].
  - destruct (Z.testbit m 7); simpl.
    + reflexivity.
    + reflexivity.
  - rewrite andb_false_r.
    destruct (Z.testbit m 7).
    + now rewrite Z.pow2_bits_false.
    + now rewrite Z.bits_0.
Qed.

Lemma c_true_land_0x80 m : c_true (Z.land m 0x80) = Z.testbit m 7.
Proof. rewrite land_0x80. now destruct (Z.testbit m 7). Qed.

(** Masking with [0x0f] keeps bits 0-3. *)
Lemma land_0x0f m : Z.land m 0x0f = m mod 16.
Proof. change 0x0f with (Z.ones 4). now rewrite Z.land_ones. Qed.

(** Masking with [0x70] and shifting by 4 extracts bits 4-6. *)
Lemma mode_bits m : Z.shiftr (Z.land m 0x70) 4 = (m / 16) mod 8.
Proof.
  rewrite Z.shiftr_land. change (Z.shiftr 0x70 4) with (Z.ones 3).
  rewrite Z.land_ones, Z.shiftr_div_pow2 by lia. reflexivity.
Qed.

Lemma mode_testbit m n :
  0 <= n ->
  Z.testbit (Z.shiftr (Z.land m 0x70) 4) n = (n <? 3) && Z.testbit m (n + 4).
Proof.
  intros Hn. rewrite Z.shiftr_land, Z.land_spec, Z.shiftr_spec by assumption.
  change (Z.shiftr 0x70 4) with (Z.ones 3).
  rewrite Z.testbit_ones_nonneg by lia.
  apply andb_comm.
Qed.

Lemma offset_testbit m n :
  0 <= n -> Z.testbit (Z.land m 0x0f) n = (n <? 4) && Z.testbit m n.
Proof.
  intros Hn. rewrite Z.land_spec. change 0x0f with (Z.ones 4).
  rewrite Z.testbit_ones_nonneg by lia. apply andb_comm.
Qed.

(** The conversion of the minor number to [int] keeps its low bits. *)
Lemma to_int_mod16 z : to_int z mod 16 = z mod 16.
Proof. apply to_int_mod; [lia | now exists (2 ^ 28)]. Qed.

Lemma to_int_mod128 z : to_int z mod 128 = z mod 128.
Proof. apply to_int_mod; [lia | now exists (2 ^ 25)]. Qed.

Lemma div16_mod8 a : (a / 16) mod 8 = (a mod 128 - a mod 16) / 16.
Proof.
  pose proof (Z.rem_mul_r a 16 8 ltac:(lia) ltac:(lia)) as H.
  change (16 * 8) with 128 in H. rewrite H.
  replace (a mod 16 + 16 * ((a / 16) mod 8) - a mod 16)
    with ((a / 16) mod 8 * 16) by lia.
  now rewrite Z.div_mul.
Qed.

Lemma to_int_mode z : (to_int z / 16) mod 8 = (z / 16) mod 8.
Proof. now rewrite !div16_mod8, to_int_mod128, to_int_mod16. Qed.

Lemma to_int_testbit7 z : Z.testbit (to_int z) 7 = Z.testbit z 7.
Proof.
  rewrite !Z.testbit_eqb by lia. change (2 ^ 7) with 128.
  destruct (to_int_congr z) as [k ->].
  replace (z + k * INT_MOD) with (z + (k * 2 ^ 25) * 128)
    by (rewrite INT_MOD_eq; lia).
  rewrite Z.div_add by lia.
  replace (k * 2 ^ 25) with ((k * 2 ^ 24) * 2) by lia.
  now rewrite Z_mod_plus_full.
Qed.

End MinorFacts.

(** ** Opening, releasing and the set-up of a port read *)

Module DriverSpec.
Import Short MinorFacts.

Section WithKernel.

Variable inode : Type.
Variable iminor : inode -> Z.
Variable file_operations : Type.
Variable short_i_fops : file_operations.

Lemma short_open_file (i : inode) (filp : file file_operations) :
  snd (short_open iminor short_i_fops i filp) =
    if Z.testbit (iminor i) 7
    then mkFile short_i_fops (f_flags filp)
    else filp.
Proof. unfold short_open. simpl. now rewrite c_true_land_0x80. Qed.

(** C4: [short_open] stores [short_i_fops] in the file's operation
    table when bit 7 of the minor number is set and leaves the file as
    it was when the bit is clear; so the table is [short_i_fops]
    afterwards if and only if the bit is set or it was that table
    already, and the table changes only if the bit is set. *)
Theorem short_open_routes_on_bit7 (i : inode) (filp : file file_operations) :
  let filp' := snd (short_open iminor short_i_fops i filp) in
  (Z.testbit (iminor i) 7 = true ->
     f_op filp' = short_i_fops /\ f_flags filp' = f_flags filp) /\
  (Z.testbit (iminor i) 7 = false -> filp' = filp) /\
  (f_op filp' = short_i_fops <->
     Z.testbit (iminor i) 7 = true \/ f_op filp = short_i_fops) /\
  (f_op filp' <> f_op filp -> Z.testbit (iminor i) 7 = true).
Proof.
  intros filp'. subst filp'. rewrite short_open_file.
  destruct (Z.testbit (iminor i) 7); simpl.
  - split; [intros _; now split |].
    split; [discriminate |].
    split; [| reflexivity].
    split; [intros _; now left | reflexivity].
  - split; [discriminate |].
    split; [reflexivity |].
    split.
    + split; [intros H; now right | intros [H | H]; [discriminate | exact H]].
    + intros H. now contradiction H.
Qed.

(** C9: [short_open] and [short_release] return 0 for every inode and
    every file; [short_release] leaves the file as it was. *)
Theorem short_open_release_return_0 (i : inode) (filp : file file_operations) :
  fst (short_open iminor short_i_fops i filp) = 0 /\
  fst (short_release i filp) = 0 /\
  snd (short_release i filp) = filp.
Proof. repeat split. Qed.

Lemma do_short_read_minor short_base i count :
  minor (do_short_read iminor short_base i count) = to_int (iminor i).
Proof. reflexivity. Qed.

Lemma do_short_read_mode short_base i count :
  mode (do_short_read iminor short_base i count) = (iminor i / 16) mod 8.
Proof.
  unfold do_short_read. simpl. now rewrite mode_bits, to_int_mode.
Qed.

Lemma do_short_read_port short_base i count :
  port (do_short_read iminor short_base i count) =
    to_ulong (short_base + iminor i mod 16).
Proof.
  unfold do_short_read. simpl.
  now rewrite to_ulong_add_r, land_0x0f, to_int_mod16.
Qed.

Lemma do_short_read_address short_base i count :
  address (do_short_read iminor short_base i count) =
    to_ulong (short_base + to_int (to_int (iminor i) * 0x0f)).
Proof. unfold do_short_read. simpl. now rewrite to_ulong_add_r. Qed.

(** C6: for every minor number, the port address of [do_short_read] is
    [short_base] plus bits 0-3 of the minor (in [unsigned long]
    arithmetic), and the mode is bits 4-6 of the minor,
    [(minor & 0x70) >> 4]. *)
Theorem do_short_read_port_and_mode short_base (i : inode) count :
  let l := do_short_read iminor short_base i count in
  port l = to_ulong (short_base + Z.land (iminor i) 0x0f) /\
  port l = to_ulong (short_base + iminor i mod 16) /\
  (forall n, 0 <= n ->
     Z.testbit (Z.land (iminor i) 0x0f) n = (n <? 4) && Z.testbit (iminor i) n) /\
  mode l = Z.shiftr (Z.land (iminor i) 0x70) 4 /\
  mode l = (iminor i / 16) mod 8 /\
  (forall n, 0 <= n ->
     Z.testbit (mode l) n = (n <? 3) && Z.testbit (iminor i) (n + 4)).
Proof.
  intros l. subst l.
  rewrite do_short_read_port, do_short_read_mode.
  split; [now rewrite land_0x0f |].
  split; [reflexivity |].
  split; [intros n Hn; now apply offset_testbit |].
  split; [now rewrite mode_bits |].
  split; [reflexivity |].
  intros n Hn. rewrite <- mode_bits. now apply mode_testbit.
Qed.

(** C5: for every minor, [do_short_read] computes the memory-mapped
    address as [short_base + minor * 0x0f], where [minor] is [iminor]
    narrowed to [int] and the product is an [int] product added to the
    address in [unsigned long] arithmetic; for a non-negative minor whose
    product fits an [int] that is [short_base + iminor * 0x0f] itself.  The
    port is [short_base + (minor & 0x0f)].  For minor 1 the two differ:
    the address is [short_base + 15], the port [short_base + 1]. *)
Theorem do_short_read_address_times_0x0f short_base (i : inode) count :
  let l := do_short_read iminor short_base i count in
  minor l = to_int (iminor i) /\
  address l = to_ulong (short_base + to_int (to_int (iminor i) * 0x0f)) /\
  port l = to_ulong (short_base + Z.land (iminor i) 0x0f) /\
  (0 <= iminor i -> iminor i * 0x0f <= INT_MAX ->
     address l = to_ulong (short_base + iminor i * 0x0f)) /\
  (iminor i = 1 ->
     address l = to_ulong (short_base + 1 * 0x0f) /\
     port l = to_ulong (short_base + 1) /\
     address l <> port l).
Proof.
  intros l. subst l.
  split; [reflexivity |].
  split; [apply do_short_read_address |].
  split; [rewrite do_short_read_port; now rewrite land_0x0f |].
  split.
  - intros Hlo Hhi. rewrite do_short_read_address.
    rewrite INT_MAX_eq in Hhi.
    rewrite (to_int_small (iminor i))
      by (rewrite INT_MIN_eq, INT_MAX_eq; lia).
    now rewrite to_int_small by (rewrite INT_MIN_eq, INT_MAX_eq; lia).
  - intros Hm.
    rewrite do_short_read_address, do_short_read_port, Hm.
    change (to_int (to_int 1 * 0x0f)) with 15.
    change (1 mod 16) with 1. change (1 * 0x0f) with 15.
    repeat split.
    unfold to_ulong. intros Heq. apply Z.cong_iff_0 in Heq.
    replace (short_base + 15 - (short_base + 1)) with 14 in Heq by lia.
    discriminate Heq.
Qed.

(** The mode always fits in three bits. *)
Lemma do_short_read_mode_range short_base i count :
  0 <= mode (do_short_read iminor short_base i count) <= 7.
Proof.
  rewrite do_short_read_mode.
  pose proof (Z.mod_pos_bound (iminor i / 16) 8 ltac:(lia)). lia.
Qed.

(** C8: the mode computed by [do_short_read] is a three-bit value, 0
    to 7; for minor [0x40], whose bit 7 is clear, it is 4, which is
    greater than 3 and is the value of none of the four [short_modes]
    constants. *)
Theorem do_short_read_mode_outside_enum short_base (i : inode) count :
  let l := do_short_read iminor short_base i count in
  0 <= mode l <= 7 /\
  (iminor i = 0x40 ->
     Z.testbit (iminor i) 7 = false /\
     mode l = 4 /\
     3 < mode l /\
     short_modes_of_Z (mode l) = None /\
     (forall m, short_modes_val m <> mode l)).
Proof.
  intros l. subst l.
  split; [apply do_short_read_mode_range |].
  intros Hm. rewrite do_short_read_mode, Hm.
  change ((0x40 / 16) mod 8) with 4.
  repeat split; try lia.
  intros [ | | | ]; discriminate.
Qed.

End WithKernel.

(** Every value of the enumeration is a value the mode can take, and the
    decoding of those four values is exact. *)
Lemma short_modes_of_Z_val m : short_modes_of_Z (short_modes_val m) = Some m.
Proof. now destruct m. Qed.

Lemma short_modes_of_Z_some z m :
  short_modes_of_Z z = Some m <-> short_modes_val m = z.
Proof.
  split.
  - unfold short_modes_of_Z.
    destruct (Z.eqb_spec z 0); [intros [= <-]; now subst |].
    destruct (Z.eqb_spec z 1); [intros [= <-]; now subst |].
    destruct (Z.eqb_spec z 2); [intros [= <-]; now subst |].
    destruct (Z.eqb_spec z 3); [intros [= <-]; now subst |].
    discriminate.
  - intros <-. apply short_modes_of_Z_val.
Qed.

(** The driver run on nodes whose inode is its minor number. *)
Lemma do_short_read_address_times_0x0f_witness :
  let l := do_short_read (fun m : Z => m) 0x378 1 16 in
  address l = to_ulong (0x378 + 1 * 0x0f) /\
  address l = 0x387 /\ port l = 0x379 /\ address l <> port l.
Proof.
  pose proof (do_short_read_address_times_0x0f Z (fun m => m) 0x378 1 16)
    as [_ [_ [_ [Hfit H]]]].
  split.
  - apply Hfit; vm_compute; discriminate.
  - split; [reflexivity |]. split; [reflexivity |]. now apply H.
Defined.

Lemma do_short_read_mode_outside_enum_witness :
  let l := do_short_read (fun m : Z => m) 0x378 0x40 16 in
  mode l = 4 /\ short_modes_of_Z (mode l) = None.
Proof.
  pose proof (do_short_read_mode_outside_enum Z (fun m => m) 0x378 0x40 16)
    as [_ H].
  split; now apply H.
Defined.

Lemma short_open_routes_on_bit7_witness :
  snd (short_open (fun m : Z => m) true 0x80 (mkFile false 0)) =
    mkFile true 0 /\
  snd (short_open (fun m : Z => m) true 0x03 (mkFile false 0)) =
    mkFile false 0.
Proof.
  split.
  - reflexivity.
  - apply (short_open_routes_on_bit7 Z (fun m => m) bool true 0x03
             (mkFile false 0)).
    reflexivity.
Defined.

End DriverSpec.

(** ** Load-time parameters *)

Module ParamSpec.
Import Short.

Local Open Scope string_scope.

Lemma module_param_base name v p :
  name <> "base" -> base (module_param name v p) = base p.
Proof.
  intros Hne. unfold module_param.
  destruct (String.eqb_spec name "base") as [-> | _]; [congruence |].
  repeat match goal with
         | |- context [String.eqb name ?s] => destruct (String.eqb name s)
         end; reflexivity.
Qed.

Lemma module_param_irq name v p :
  name <> "irq" -> irq (module_param name v p) = irq p.
Proof.
  intros Hne. unfold module_param.
  destruct (String.eqb_spec name "irq") as [-> | _]; [congruence |].
  repeat match goal with
         | |- context [String.eqb name ?s] => destruct (String.eqb name s)
         end; reflexivity.
Qed.

Lemma fold_params_keep (proj : module_params -> Z) (key : string) args :
  (forall name v p, name <> key -> proj (module_param name v p) = proj p) ->
  Forall (fun a => fst a <> key) args ->
  forall p,
    proj (fold_left (fun p a => module_param (fst a) (snd a) p) args p) = proj p.
Proof.
  intros Hkeep Hall. induction Hall as [| a rest Ha _ IH]; intros p.
  - reflexivity.
  - simpl. rewrite IH. now apply Hkeep.
Qed.

(** A parameter keeps its initial value as long as the load line does
    not name it. *)
Lemma load_params_base_untouched args :
  Forall (fun a => fst a <> "base") args -> base (load_params args) = 0x378%Z.
Proof.
  intros Hall. unfold load_params.
  now rewrite (fold_params_keep base "base" args module_param_base Hall).
Qed.

Lemma load_params_irq_untouched args :
  Forall (fun a => fst a <> "irq") args -> irq (load_params args) = (-1)%Z.
Proof.
  intros Hall. unfold load_params.
  now rewrite (fold_params_keep irq "irq" args module_param_irq Hall).
Qed.

(** C7: loaded without parameters, the module has [base] = 0x378 and
    [irq] = -1; these are the static initialisers, and the working copy
    [short_irq] starts at -1 as well. *)
Theorem load_params_nil_defaults :
  base (load_params []) = 0x378%Z /\
  irq (load_params []) = (-1)%Z /\
  load_params [] = initial_params /\
  base initial_params = 0x378%Z /\
  irq initial_params = (-1)%Z /\
  initial_short_irq = (-1)%Z.
Proof. repeat split. Qed.

(** Naming a parameter on the load line does replace it. *)
Example load_params_base_given :
  base (load_params [("base", 0x300%Z)]) = 0x300%Z /\
  irq (load_params [("base", 0x300%Z); ("irq", 7%Z)]) = 7%Z.
Proof. split; reflexivity. Qed.

End ParamSpec.

(** ** sram.h without [CONFIG_SRAM_EXEC] *)

Module SramSpec.
Import Sram.

(** C10: without [CONFIG_SRAM_EXEC], [sram_check_protect_exec] and
    [sram_add_protect_exec] return [-ENODEV] on every input, leave the
    objects passed to them as they were, and return the same value
    whatever those objects hold. *)
Theorem sram_protect_exec_stubs ENODEV CONFIG_SRAM_EXEC exec_check exec_add :
  CONFIG_SRAM_EXEC = false ->
  (forall sram block part,
      sram_check_protect_exec ENODEV CONFIG_SRAM_EXEC exec_check sram block part
      = (- ENODEV, (sram, block, part))) /\
  (forall part,
      sram_add_protect_exec ENODEV CONFIG_SRAM_EXEC exec_add part
      = (- ENODEV, part)) /\
  (forall sram block part sram' block' part',
      fst (sram_check_protect_exec ENODEV CONFIG_SRAM_EXEC exec_check
             sram block part)
      = fst (sram_check_protect_exec ENODEV CONFIG_SRAM_EXEC exec_check
               sram' block' part')) /\
  (forall part part',
      fst (sram_add_protect_exec ENODEV CONFIG_SRAM_EXEC exec_add part)
      = fst (sram_add_protect_exec ENODEV CONFIG_SRAM_EXEC exec_add part')).
Proof.
  intros ->. unfold sram_check_protect_exec, sram_add_protect_exec.
  repeat split.
Qed.

(** With the usual value 19 of [ENODEV], on one concrete device. *)
Lemma sram_protect_exec_stubs_witness :
  let sram := mkDev 1 2 3 4 5 1 in
  let block := mkReserve 0 0 4096 false true true "code" in
  let part := mkPartition 2 3 0 0 0 in
  sram_check_protect_exec 19 false (fun s b p => (0, (s, b, p))) sram block part
    = (-19, (sram, block, part)) /\
  sram_add_protect_exec 19 false (fun p => (0, p)) part = (-19, part).
Proof.
  intros sram block part.
  destruct (sram_protect_exec_stubs 19 false
              (fun s b p => (0, (s, b, p))) (fun p => (0, p)) eq_refl)
    as [Hc [Ha _]].
  split; [apply Hc | apply Ha].
Defined.

End SramSpec.

(** ** Runs of cursor advances *)

Module CursorRuns.
Import Short CursorFacts.

Lemma to_ulong_neg z : - ULONG_MOD <= z < 0 -> to_ulong z = z + ULONG_MOD.
Proof.
  intros Hz. unfold to_ulong. symmetry.
  apply Z.mod_unique with (q := -1); rewrite ULONG_MOD_eq in *; lia.
Qed.

Lemma cursor_eqb_eq i j : cursor_eqb i j = true <-> i = j.
Proof. destruct i, j; simpl; split; congruence. Qed.

(** Two states with the same page and the same cursors are the same. *)
Lemma ring_eq_loads st1 st2 :
  short_buffer st1 = short_buffer st2 ->
  (forall i, load i st1 = load i st2) ->
  st1 = st2.
Proof.
  intros Hb Hl. destruct st1 as [b1 h1 t1], st2 as [b2 h2 t2].
  simpl in Hb. pose proof (Hl Head) as Hh. pose proof (Hl Tail) as Ht.
  simpl in Hh, Ht. congruence.
Qed.

Section WithPage.

Variable PAGE_SIZE : Z.

Lemma advances_buffer steps : forall st,
  short_buffer (advances PAGE_SIZE steps st) = short_buffer st.
Proof.
  induction steps as [| [index delta] rest IH]; intros st; simpl.
  - reflexivity.
  - now rewrite IH, short_incr_bp_buffer.
Qed.

Lemma advances_app s1 : forall s2 st,
  advances PAGE_SIZE (s1 ++ s2) st =
  advances PAGE_SIZE s2 (advances PAGE_SIZE s1 st).
Proof.
  induction s1 as [| [index delta] rest IH]; intros s2 st; simpl.
  - reflexivity.
  - apply IH.
Qed.

(** What an advance stores depends on the page address and on the cursor
    it advances, on nothing else. *)
Lemma short_incr_bp_agree i delta a b :
  short_buffer a = short_buffer b ->
  load i a = load i b ->
  load i (short_incr_bp PAGE_SIZE i delta a) =
  load i (short_incr_bp PAGE_SIZE i delta b).
Proof.
  intros Hb Hl. unfold short_incr_bp. rewrite !load_store.
  now rewrite Hb, Hl.
Qed.

Lemma advances_steps_on i steps : forall a b,
  short_buffer a = short_buffer b ->
  load i a = load i b ->
  load i (advances PAGE_SIZE steps a) =
  load i (advances PAGE_SIZE (steps_on i steps) b).
Proof.
  induction steps as [| [j delta] rest IH]; intros a b Hb Hl.
  - exact Hl.
  - simpl. destruct (cursor_eqb j i) eqn:Hji.
    + apply cursor_eqb_eq in Hji. subst j. simpl. apply IH.
      * now rewrite !short_incr_bp_buffer.
      * now apply short_incr_bp_agree.
    + apply IH.
      * now rewrite short_incr_bp_buffer.
      * rewrite short_incr_bp_other; [exact Hl |].
        intros ->. destruct j; discriminate.
  Qed.

Lemma steps_on_other i j steps :
  i <> j -> steps_on i (steps_on j steps) = [].
Proof.
  intros Hne. induction steps as [| [k delta] rest IH]; simpl.
  - reflexivity.
  - destruct (cursor_eqb k j) eqn:Hkj; simpl.
    + apply cursor_eqb_eq in Hkj. subst k.
      destruct (cursor_eqb j i) eqn:Hji.
      * apply cursor_eqb_eq in Hji. congruence.
      * exact IH.
    + exact IH.
Qed.

End WithPage.

End CursorRuns.

Module CursorExtra.
Import Short CursorFacts CursorRuns.

(** X1: in a mapped page, any run of advances by non-negative [int]
    deltas, on either cursor and in any order, leaves the page address as
    it was and both cursors at offsets in [0, PAGE_SIZE). *)
Theorem advances_keep_offsets PAGE_SIZE steps st :
  page_mapped PAGE_SIZE st ->
  cursors_in_page PAGE_SIZE st ->
  Forall (fun s => 0 <= snd s <= INT_MAX) steps ->
  let st' := advances PAGE_SIZE steps st in
  short_buffer st' = short_buffer st /\
  0 <= cursor_rel Head st' < PAGE_SIZE /\
  0 <= cursor_rel Tail st' < PAGE_SIZE.
Proof.
  intros Hm Hinv Hall st'.
  assert (Hb : short_buffer st' = short_buffer st) by apply advances_buffer.
  destruct (advances_invariant PAGE_SIZE steps st Hm Hinv Hall) as [Hh Ht].
  fold st' in Hh, Ht. unfold in_page in Hh, Ht.
  unfold cursor_rel. simpl. rewrite Hb in *. lia.
Qed.

Lemma advances_keep_offsets_witness :
  let st' := advances 4096 [(Head, 4000); (Tail, 64); (Head, 200); (Tail, 64)]
                      (mkRing 0 0 0) in
  st' = mkRing 0 0 128 /\
  0 <= cursor_rel Head st' < 4096 /\ 0 <= cursor_rel Tail st' < 4096.
Proof.
  split; [reflexivity |].
  apply (advances_keep_offsets 4096
           [(Head, 4000); (Tail, 64); (Head, 200); (Tail, 64)] (mkRing 0 0 0)).
  - vm_compute. intuition discriminate.
  - vm_compute. intuition discriminate.
  - repeat constructor; vm_compute; discriminate.
Defined.

(** X2: in a mapped page, a negative delta is added as it is and never
    triggers the reset:
    the cursor moves back by [-delta] and is stored even when that is
    below [short_buffer]; only when the sum would be below address 0 does
    the [unsigned long] sum wrap to the top and the cursor get reset to
    [short_buffer].  So the cursor stays in the page exactly when
    [short_buffer <= cursor + delta] or [cursor + delta < 0]. *)
Theorem short_incr_bp_negative_delta PAGE_SIZE index delta st :
  page_mapped PAGE_SIZE st ->
  in_page PAGE_SIZE st (load index st) ->
  INT_MIN <= delta < 0 ->
  let st' := short_incr_bp PAGE_SIZE index delta st in
  load index st' =
    (if load index st + delta <? 0 then short_buffer st
     else load index st + delta) /\
  (in_page PAGE_SIZE st (load index st') <->
     short_buffer st <= load index st + delta \/ load index st + delta < 0).
Proof.
  intros [Hb Htop] [Hlo Hhi] Hd st'.
  assert (Hv : load index st' =
               if load index st + delta <? 0 then short_buffer st
               else load index st + delta).
  { subst st'. unfold short_incr_bp. rewrite load_store, to_ulong_add_r.
    rewrite ULONG_MOD_eq, INT_MAX_eq, INT_MIN_eq in *.
    rewrite (to_ulong_small (short_buffer st + PAGE_SIZE))
      by (rewrite ULONG_MOD_eq; lia).
    destruct (Z.ltb_spec (load index st + delta) 0) as [Hneg | Hpos].
    - rewrite to_ulong_neg by (rewrite ULONG_MOD_eq; lia).
      rewrite ULONG_MOD_eq.
      destruct (Z.geb_spec (load index st + delta + 18446744073709551616)
                           (short_buffer st + PAGE_SIZE)); [reflexivity | lia].
    - rewrite to_ulong_small by (rewrite ULONG_MOD_eq; lia).
      destruct (Z.geb_spec (load index st + delta)
                           (short_buffer st + PAGE_SIZE)); [lia | reflexivity]. }
  split; [exact Hv |].
  rewrite Hv. unfold in_page.
  destruct (Z.ltb_spec (load index st + delta) 0); lia.
Qed.

Lemma short_incr_bp_negative_delta_witness :
  let st := mkRing 8192 8202 8192 in
  short_head (short_incr_bp 4096 Head (-16) st) = 8186 /\
  ~ in_page 4096 st (short_head (short_incr_bp 4096 Head (-16) st)).
Proof.
  intros st.
  destruct (short_incr_bp_negative_delta 4096 Head (-16) st) as [Hv Hin].
  - vm_compute. intuition discriminate.
  - vm_compute. intuition discriminate.
  - vm_compute. intuition discriminate.
  - split; [exact Hv |].
    intros H. apply Hin in H. vm_compute in H.
    destruct H as [H | H]; [now apply H | discriminate H].
Defined.

(** X3: in a mapped page, an advance that stays short of the end of the
    page composes with the next one: advancing by [d1] and then by [d2] is advancing by
    [d1 + d2]. *)
Theorem short_incr_bp_compose PAGE_SIZE index d1 d2 st :
  page_mapped PAGE_SIZE st ->
  in_page PAGE_SIZE st (load index st) ->
  0 <= d1 -> 0 <= d2 -> d1 + d2 <= INT_MAX ->
  cursor_rel index st + d1 < PAGE_SIZE ->
  short_incr_bp PAGE_SIZE index d2 (short_incr_bp PAGE_SIZE index d1 st) =
  short_incr_bp PAGE_SIZE index (d1 + d2) st.
Proof.
  intros Hm Hin H1 H2 H12 Hshort.
  assert (Hl1 : load index (short_incr_bp PAGE_SIZE index d1 st)
                = load index st + d1).
  { rewrite short_incr_bp_load by (auto; lia). unfold cursor_rel in Hshort.
    destruct (Z.geb_spec (load index st + d1) (short_buffer st + PAGE_SIZE));
      [lia | reflexivity]. }
  apply ring_eq_loads.
  - now rewrite !short_incr_bp_buffer.
  - intros i. destruct (cursor_eq_dec i index) as [-> | Hne].
    + rewrite short_incr_bp_load.
      * rewrite short_incr_bp_buffer, Hl1.
        rewrite (short_incr_bp_load PAGE_SIZE index (d1 + d2)) by (auto; lia).
        now rewrite Z.add_assoc.
      * now apply page_mapped_incr.
      * apply in_page_incr. apply short_incr_bp_keeps; auto; lia.
      * lia.
    + now rewrite !short_incr_bp_other by assumption.
Qed.

Lemma short_incr_bp_compose_witness :
  short_incr_bp 4096 Head 90 (short_incr_bp 4096 Head 14 (mkRing 0 4000 0)) =
  short_incr_bp 4096 Head 104 (mkRing 0 4000 0).
Proof.
  apply (short_incr_bp_compose 4096 Head 14 90 (mkRing 0 4000 0));
    vm_compute; intuition discriminate.
Defined.

(** When the first advance does reach the end of the page the two differ:
    from offset 4090, 10 and then 10 more ends at offset 10, 20 at once
    ends at offset 0. *)
Example short_incr_bp_compose_after_reset :
  short_incr_bp 4096 Head 10 (short_incr_bp 4096 Head 10 (mkRing 0 4090 0))
    = mkRing 0 10 0 /\
  short_incr_bp 4096 Head 20 (mkRing 0 4090 0) = mkRing 0 0 0.
Proof. split; reflexivity. Qed.

(** One advance by a record size that divides both the page size and the
    cursor's offset is an addition modulo the page size. *)
Lemma short_incr_bp_aligned PAGE_SIZE index delta st :
  page_mapped PAGE_SIZE st ->
  0 < delta <= INT_MAX ->
  (delta | PAGE_SIZE) ->
  (delta | cursor_rel index st) ->
  0 <= cursor_rel index st < PAGE_SIZE ->
  cursor_rel index (short_incr_bp PAGE_SIZE index delta st) =
    (cursor_rel index st + delta) mod PAGE_SIZE.
Proof.
  intros Hm Hd [b Hb] [a Ha] Hc.
  rewrite short_incr_bp_rel by (auto; lia).
  assert (Hab : a + 1 <= b) by nia.
  assert (Hle : cursor_rel index st + delta <= PAGE_SIZE) by nia.
  destruct (Z.geb_spec (cursor_rel index st + delta) PAGE_SIZE) as [Hge | Hlt].
  - replace (cursor_rel index st + delta) with PAGE_SIZE by lia.
    now rewrite Z_mod_same_full.
  - symmetry. apply Z.mod_small. lia.
Qed.

Lemma mod_keeps_divisor x d p : (d | x) -> (d | p) -> (d | x mod p).
Proof.
  intros Hx Hp. destruct (Z.eq_dec p 0) as [-> | Hnz].
  - now rewrite Z.mod_0_r.
  - rewrite Z.mod_eq by assumption.
    apply Z.divide_sub_r; [assumption |].
    now apply Z.divide_mul_l.
Qed.

(** The same over a run of [n] such advances, by induction on [n]. *)
Lemma advances_aligned_run PAGE_SIZE index delta n : forall st,
  page_mapped PAGE_SIZE st ->
  0 < delta <= INT_MAX ->
  (delta | PAGE_SIZE) ->
  (delta | cursor_rel index st) ->
  0 <= cursor_rel index st < PAGE_SIZE ->
  cursor_rel index (advances PAGE_SIZE (repeat (index, delta) n) st) =
    (cursor_rel index st + Z.of_nat n * delta) mod PAGE_SIZE.
Proof.
  induction n as [| n IH]; intros st Hm Hd Hp Hc Hr.
  - simpl. rewrite Z.add_0_r. symmetry. now apply Z.mod_small.
  - simpl repeat. cbn [advances].
    set (st1 := short_incr_bp PAGE_SIZE index delta st).
    assert (Hr1 : cursor_rel index st1 = (cursor_rel index st + delta) mod PAGE_SIZE)
      by now apply short_incr_bp_aligned.
    assert (Hpos : 0 < PAGE_SIZE) by lia.
    rewrite IH.
    + rewrite Hr1, Zplus_mod_idemp_l. f_equal. lia.
    + now apply page_mapped_incr.
    + exact Hd.
    + exact Hp.
    + rewrite Hr1. apply mod_keeps_divisor; [| exact Hp].
      apply Z.divide_add_r; [exact Hc | apply Z.divide_refl].
    + rewrite Hr1. now apply Z.mod_pos_bound.
Qed.

(** A run on one cursor does not touch the other. *)
Lemma advances_repeat_other PAGE_SIZE index delta j n : forall st,
  j <> index ->
  load j (advances PAGE_SIZE (repeat (index, delta) n) st) = load j st.
Proof.
  induction n as [| n IH]; intros st Hne; simpl.
  - reflexivity.
  - rewrite IH by assumption. now apply short_incr_bp_other.
Qed.

(** X4: in a mapped page, with records of one size [delta] that divides
    the page size, a cursor that starts on a multiple of [delta] moves like a counter
    modulo the page size: after [n] advances its offset is
    [(c + n * delta) mod PAGE_SIZE], and the other cursor and the page
    address are as before. *)
Theorem advances_aligned_modular PAGE_SIZE index delta n st :
  page_mapped PAGE_SIZE st ->
  0 < delta <= INT_MAX ->
  (delta | PAGE_SIZE) ->
  (delta | cursor_rel index st) ->
  0 <= cursor_rel index st < PAGE_SIZE ->
  let st' := advances PAGE_SIZE (repeat (index, delta) n) st in
  cursor_rel index st' = (cursor_rel index st + Z.of_nat n * delta) mod PAGE_SIZE /\
  short_buffer st' = short_buffer st /\
  (forall j, j <> index -> load j st' = load j st).
Proof.
  intros Hm Hd Hp Hc Hr st'. subst st'.
  split; [| split].
  - now apply advances_aligned_run.
  - apply advances_buffer.
  - intros j Hj. now apply advances_repeat_other.
Qed.

Lemma advances_aligned_modular_witness :
  let st' := advances 4096 (repeat (Head, 16) 3) (mkRing 0 4064 32) in
  cursor_rel Head st' = (4064 + 3 * 16) mod 4096 /\
  st' = mkRing 0 16 32.
Proof.
  split; [| reflexivity].
  apply (advances_aligned_modular 4096 Head 16 3 (mkRing 0 4064 32)).
  - vm_compute. intuition discriminate.
  - vm_compute. intuition discriminate.
  - exists 256. reflexivity.
  - exists 254. reflexivity.
  - vm_compute. intuition discriminate.
Defined.

(** X5: in a mapped page, with such records the cursor comes back to where it started after
    [PAGE_SIZE / delta] advances, and the whole state is the one the run
    began with. *)
Theorem advances_full_cycle PAGE_SIZE index delta st :
  page_mapped PAGE_SIZE st ->
  0 < delta <= INT_MAX ->
  (delta | PAGE_SIZE) ->
  (delta | cursor_rel index st) ->
  0 <= cursor_rel index st < PAGE_SIZE ->
  advances PAGE_SIZE (repeat (index, delta) (Z.to_nat (PAGE_SIZE / delta))) st
  = st.
Proof.
  intros Hm Hd Hp Hc Hr.
  pose proof (advances_aligned_run PAGE_SIZE index delta
                (Z.to_nat (PAGE_SIZE / delta)) st Hm Hd Hp Hc Hr) as Hrel.
  assert (Hbuf : short_buffer
                   (advances PAGE_SIZE
                      (repeat (index, delta) (Z.to_nat (PAGE_SIZE / delta))) st)
                 = short_buffer st) by apply advances_buffer.
  assert (Hq : Z.of_nat (Z.to_nat (PAGE_SIZE / delta)) * delta = PAGE_SIZE).
  { destruct Hp as [b Hb]. subst PAGE_SIZE.
    rewrite Z.div_mul by lia. rewrite Z2Nat.id by nia. reflexivity. }
  rewrite Hq in Hrel.
  rewrite <- Zplus_mod_idemp_r, Z_mod_same_full, Z.add_0_r in Hrel.
  rewrite Z.mod_small in Hrel by exact Hr.
  apply ring_eq_loads; [exact Hbuf |].
  intros i. destruct (cursor_eq_dec i index) as [-> | Hne].
  - unfold cursor_rel in Hrel. rewrite Hbuf in Hrel. lia.
  - now apply advances_repeat_other.
Qed.

Lemma advances_full_cycle_witness :
  advances 4096 (repeat (Tail, 16) (Z.to_nat (4096 / 16))) (mkRing 0 48 32)
  = mkRing 0 48 32.
Proof.
  apply (advances_full_cycle 4096 Tail 16 (mkRing 0 48 32)).
  - vm_compute. intuition discriminate.
  - vm_compute. intuition discriminate.
  - exists 256. reflexivity.
  - exists 2. reflexivity.
  - vm_compute. intuition discriminate.
Defined.

(** X6: each cursor has a single writer.  After any run of advances the
    value of a cursor is the one its own steps alone produce, whatever
    steps on the other cursor were interleaved with them; so the run ends
    in the state reached by doing all the [Head] steps first and all the
    [Tail] steps after them. *)
Theorem advances_single_writer PAGE_SIZE steps st :
  (forall i,
     load i (advances PAGE_SIZE steps st) =
     load i (advances PAGE_SIZE (steps_on i steps) st)) /\
  advances PAGE_SIZE steps st =
  advances PAGE_SIZE (steps_on Head steps ++ steps_on Tail steps) st.
Proof.
  assert (Hown : forall i,
             load i (advances PAGE_SIZE steps st) =
             load i (advances PAGE_SIZE (steps_on i steps) st))
    by (intros i; now apply advances_steps_on).
  split; [exact Hown |].
  rewrite advances_app. apply ring_eq_loads.
  - now rewrite !advances_buffer.
  - intros i. rewrite Hown.
    rewrite (advances_steps_on PAGE_SIZE i (steps_on Tail steps)
               (advances PAGE_SIZE (steps_on Head steps) st)
               (advances PAGE_SIZE (steps_on Head steps) st)
               eq_refl eq_refl).
    destruct i.
    + rewrite steps_on_other by discriminate. reflexivity.
    + apply advances_steps_on.
      * symmetry. apply advances_buffer.
      * symmetry.
        rewrite (advances_steps_on PAGE_SIZE Tail (steps_on Head steps) st st
                   eq_refl eq_refl).
        now rewrite steps_on_other by discriminate.
Qed.

(** X7: in a mapped page, when the two cursors are equal and the head is
    advanced by a
    positive delta, they are equal again afterwards only if the head was
    at offset 0 and the delta is at least the page size; an advance by
    less than a page from equal cursors always leaves them different. *)
Theorem short_incr_bp_head_meets_tail PAGE_SIZE delta st :
  page_mapped PAGE_SIZE st ->
  cursors_in_page PAGE_SIZE st ->
  short_head st = short_tail st ->
  0 < delta <= INT_MAX ->
  let st' := short_incr_bp PAGE_SIZE Head delta st in
  short_head st' = short_tail st' <->
  cursor_rel Head st = 0 /\ PAGE_SIZE <= delta.
Proof.
  intros Hm [Hh Ht] Heq Hd st'.
  assert (Hv : short_head st' =
               if short_head st + delta >=? short_buffer st + PAGE_SIZE
               then short_buffer st else short_head st + delta)
    by (apply (short_incr_bp_load PAGE_SIZE Head); auto; lia).
  assert (Htl : short_tail st' = short_tail st) by reflexivity.
  rewrite Hv, Htl. unfold cursor_rel, in_page in *. simpl.
  destruct (Z.geb_spec (short_head st + delta) (short_buffer st + PAGE_SIZE));
    lia.
Qed.

Lemma short_incr_bp_head_meets_tail_witness :
  let st := mkRing 0 4090 4090 in
  short_head (short_incr_bp 4096 Head 10 st)
    <> short_tail (short_incr_bp 4096 Head 10 st).
Proof.
  intros st H.
  apply (short_incr_bp_head_meets_tail 4096 10 st) in H.
  - destruct H as [H _]. discriminate H.
  - vm_compute. intuition discriminate.
  - vm_compute. intuition discriminate.
  - reflexivity.
  - vm_compute. intuition discriminate.
Defined.

(** A whole page written at once from offset 0 leaves the cursors equal,
    as if nothing had been written. *)
Example short_incr_bp_full_page_looks_empty :
  short_incr_bp 4096 Head 4096 (mkRing 0 0 0) = mkRing 0 0 0.
Proof. reflexivity. Qed.

End CursorExtra.

(** ** More on minor numbers, opening and the set-up of a port read *)

Module DriverExtra.
Import Short MinorFacts DriverSpec.

(** Bit [k] of a number is set exactly when its residue modulo 2^(k+1)
    reaches 2^k. *)
Lemma testbit_threshold m k :
  0 <= k -> Z.testbit m k = (2 ^ k <=? m mod 2 ^ (k + 1)).
Proof.
  intros Hk. rewrite Z.testbit_eqb by assumption.
  assert (Hpos : 0 < 2 ^ k) by (apply Z.pow_pos_nonneg; lia).
  rewrite Z.pow_add_r, Z.pow_1_r by lia.
  rewrite Z.rem_mul_r by lia.
  pose proof (Z.mod_pos_bound m (2 ^ k) Hpos) as Hlow.
  pose proof (Z.mod_pos_bound (m / 2 ^ k) 2 ltac:(lia)) as Hbit.
  destruct (Z.eqb_spec ((m / 2 ^ k) mod 2) 1) as [He | Hne];
    symmetry; [apply Z.leb_le | apply Z.leb_gt]; nia.
Qed.

Lemma mod128_split m : m mod 128 = m mod 16 + 16 * ((m / 16) mod 8).
Proof. now rewrite <- Z.rem_mul_r by lia. Qed.

Section WithKernel.

Variable inode : Type.
Variable iminor : inode -> Z.
Variable file_operations : Type.
Variable short_i_fops : file_operations.

(** X8: opening is idempotent and one-way.  Opening a file a second time
    through the same node changes nothing more; the flags are never
    touched; and a file whose table is [short_i_fops] keeps that table
    whatever node it is opened through next. *)
Theorem short_open_idempotent (i j : inode) (filp : file file_operations) :
  let filp1 := snd (short_open iminor short_i_fops i filp) in
  short_open iminor short_i_fops i filp1
    = short_open iminor short_i_fops i filp /\
  f_flags filp1 = f_flags filp /\
  (f_op filp = short_i_fops ->
   f_op (snd (short_open iminor short_i_fops j filp)) = short_i_fops).
Proof.
  intros filp1. subst filp1.
  split; [| split].
  - unfold short_open. simpl.
    destruct (c_true (Z.land (iminor i) 0x80)); reflexivity.
  - rewrite short_open_file. now destruct (Z.testbit (iminor i) 7).
  - intros Hop. rewrite short_open_file.
    now destruct (Z.testbit (iminor i) 7), (Z.testbit (iminor j) 7).
Qed.

(** X9: the table is switched for every minor whose residue modulo 256 is
    128 or more, not for minor 128 alone: all of 128..255 open the
    interrupt device, all of 0..127 leave the file as it was. *)
Theorem short_open_threshold (i : inode) (filp : file file_operations) :
  snd (short_open iminor short_i_fops i filp) =
    (if 128 <=? iminor i mod 256
     then mkFile short_i_fops (f_flags filp)
     else filp) /\
  (0 <= iminor i < 256 ->
   (128 <= iminor i ->
    f_op (snd (short_open iminor short_i_fops i filp)) = short_i_fops) /\
   (iminor i < 128 -> snd (short_open iminor short_i_fops i filp) = filp)).
Proof.
  assert (Hf : snd (short_open iminor short_i_fops i filp) =
               if 128 <=? iminor i mod 256
               then mkFile short_i_fops (f_flags filp) else filp).
  { rewrite short_open_file, (testbit_threshold (iminor i) 7) by lia.
    reflexivity. }
  split; [exact Hf |].
  intros Hr. rewrite Hf, Z.mod_small by exact Hr.
  destruct (Z.leb_spec 128 (iminor i)); split; intros; (reflexivity || lia).
Qed.

(** X10: packing a routing part [h], a mode [m] in 0..7 and a port offset
    [o] in 0..15 into the minor [128 * h + 16 * m + o] is undone by
    [do_short_read]: its mode is [m] and its port is [short_base + o]. *)
Theorem do_short_read_unpacks short_base (i : inode) count h m o :
  0 <= m < 8 ->
  0 <= o < 16 ->
  iminor i = 128 * h + 16 * m + o ->
  let l := do_short_read iminor short_base i count in
  mode l = m /\ port l = to_ulong (short_base + o).
Proof.
  intros Hm Ho Hi l. subst l.
  rewrite do_short_read_mode, do_short_read_port, Hi.
  split.
  - replace (128 * h + 16 * m + o) with (o + (8 * h + m) * 16) by lia.
    rewrite Z.div_add by lia. rewrite Z.div_small by lia.
    replace (0 + (8 * h + m)) with (m + h * 8) by lia.
    rewrite Z_mod_plus_full. now apply Z.mod_small.
  - replace (128 * h + 16 * m + o) with (o + (8 * h + m) * 16) by lia.
    rewrite Z_mod_plus_full. now rewrite Z.mod_small.
Qed.

(** X11: when the sixteen ports starting at [short_base] do not wrap
    around the address space, the port lies among them and, with the
    mode, gives back the low seven bits of the minor:
    [minor mod 128 = 16 * mode + (port - short_base)]. *)
Theorem do_short_read_low_bits short_base (i : inode) count :
  0 <= short_base ->
  short_base + 15 < ULONG_MOD ->
  let l := do_short_read iminor short_base i count in
  short_base <= port l <= short_base + 15 /\
  iminor i mod 128 = 16 * mode l + (port l - short_base).
Proof.
  intros Hb Htop l. subst l.
  rewrite do_short_read_mode, do_short_read_port.
  pose proof (Z.mod_pos_bound (iminor i) 16 ltac:(lia)) as Ho.
  rewrite to_ulong_small by lia.
  split; [lia |]. rewrite mod128_split. lia.
Qed.

End WithKernel.

Lemma do_short_read_unpacks_witness :
  let l := do_short_read (fun m : Z => m) 0x378 0x32 16 in
  mode l = 3 /\ port l = 0x37a.
Proof.
  apply (do_short_read_unpacks Z (fun m => m) 0x378 0x32 16 0 3 2).
  - vm_compute. intuition discriminate.
  - vm_compute. intuition discriminate.
  - reflexivity.
Defined.

Lemma do_short_read_low_bits_witness :
  let l := do_short_read (fun m : Z => m) 0x378 0xb5 16 in
  0x378 <= port l <= 0x378 + 15 /\
  0xb5 mod 128 = 16 * mode l + (port l - 0x378).
Proof.
  apply (do_short_read_low_bits Z (fun m => m) 0x378 0xb5 16).
  - vm_compute. discriminate.
  - reflexivity.
Defined.

Lemma short_open_threshold_witness :
  f_op (snd (short_open (fun m : Z => m) true 200 (mkFile false 2))) = true /\
  snd (short_open (fun m : Z => m) true 127 (mkFile false 2)) = mkFile false 2.
Proof.
  split.
  - apply (short_open_threshold Z (fun m => m) bool true 200 (mkFile false 2));
      vm_compute; intuition discriminate.
  - apply (short_open_threshold Z (fun m => m) bool true 127 (mkFile false 2));
      vm_compute; intuition discriminate.
Defined.

Lemma short_open_idempotent_witness :
  f_op (snd (short_open (fun m : Z => m) true 3
               (snd (short_open (fun m : Z => m) true 0x80 (mkFile false 2)))))
  = true.
Proof.
  apply (short_open_idempotent Z (fun m => m) bool true 0x80 3
           (snd (short_open (fun m : Z => m) true 0x80 (mkFile false 2)))).
  reflexivity.
Defined.

Section ReadSetUp.

Variable inode : Type.
Variable iminor : inode -> Z.

(** X12: for a minor whose product with [0x0f] fits an [int], the
    memory-mapped address of [do_short_read] equals its port address only
    for minor 0; every other minor gets two different addresses, whatever
    [short_base] is. *)
Theorem do_short_read_address_is_port short_base (i : inode) count :
  0 <= iminor i ->
  iminor i * 0x0f <= INT_MAX ->
  let l := do_short_read iminor short_base i count in
  address l = port l <-> iminor i = 0.
Proof.
  intros Hlo Hhi l. subst l.
  rewrite do_short_read_address, do_short_read_port.
  rewrite INT_MAX_eq in Hhi.
  rewrite (to_int_small (iminor i))
    by (rewrite INT_MIN_eq, INT_MAX_eq; lia).
  rewrite to_int_small by (rewrite INT_MIN_eq, INT_MAX_eq; lia).
  pose proof (Z.mod_pos_bound (iminor i) 16 ltac:(lia)) as Ho.
  assert (Hle : iminor i mod 16 <= iminor i) by (apply Z.mod_le; lia).
  unfold to_ulong. rewrite Z.cong_iff_0.
  replace (short_base + iminor i * 0x0f - (short_base + iminor i mod 16))
    with (iminor i * 15 - iminor i mod 16) by lia.
  rewrite Z.mod_small by (rewrite ULONG_MOD_eq; lia).
  lia.
Qed.

(** X13: the port offset runs over 0..15 although the driver counts
    [SHORT_NR_PORTS] = 8 ports: when the sixteen addresses from
    [short_base] do not wrap, the port is below
    [short_base + SHORT_NR_PORTS] exactly when bit 3 of the minor is
    clear. *)
Theorem do_short_read_port_within_nr_ports short_base (i : inode) count :
  0 <= short_base ->
  short_base + 15 < ULONG_MOD ->
  let l := do_short_read iminor short_base i count in
  port l < short_base + SHORT_NR_PORTS <-> Z.testbit (iminor i) 3 = false.
Proof.
  intros Hb Htop l. subst l.
  rewrite do_short_read_port.
  pose proof (Z.mod_pos_bound (iminor i) 16 ltac:(lia)) as Ho.
  rewrite to_ulong_small by lia.
  rewrite (testbit_threshold (iminor i) 3) by lia.
  change (2 ^ 3) with 8. change (2 ^ (3 + 1)) with 16.
  unfold SHORT_NR_PORTS. rewrite Z.leb_gt. lia.
Qed.


(** X15: the mode of [do_short_read] is the value of one of the four
    [short_modes] constants exactly when bit 6 of the minor is clear. *)
Theorem do_short_read_mode_in_enum short_base (i : inode) count :
  let l := do_short_read iminor short_base i count in
  (exists m, short_modes_of_Z (mode l) = Some m) <->
  Z.testbit (iminor i) 6 = false.
Proof.
  intros l. subst l. rewrite do_short_read_mode.
  rewrite (testbit_threshold (iminor i) 6) by lia.
  change (2 ^ 6) with 64. change (2 ^ (6 + 1)) with 128.
  rewrite mod128_split, Z.leb_gt.
  pose proof (Z.mod_pos_bound (iminor i) 16 ltac:(lia)) as Ho.
  pose proof (Z.mod_pos_bound (iminor i / 16) 8 ltac:(lia)) as Hm.
  split.
  - intros [m Hsome]. apply short_modes_of_Z_some in Hsome.
    destruct m; simpl in Hsome; lia.
  - intros Hlt.
    assert (Hcases : (iminor i / 16) mod 8 = 0 \/ (iminor i / 16) mod 8 = 1 \/
                     (iminor i / 16) mod 8 = 2 \/ (iminor i / 16) mod 8 = 3)
      by lia.
    destruct Hcases as [-> | [-> | [-> | ->]]]; eexists; reflexivity.
Qed.

End ReadSetUp.

Lemma do_short_read_address_is_port_witness :
  let l := do_short_read (fun m : Z => m) 0x378 0 16 in
  address l = port l.
Proof.
  apply (do_short_read_address_is_port Z (fun m => m) 0x378 0 16).
  - vm_compute. discriminate.
  - vm_compute. discriminate.
  - reflexivity.
Defined.

Lemma do_short_read_port_within_nr_ports_witness :
  let l := do_short_read (fun m : Z => m) 0x378 0x0a 16 in
  ~ port l < 0x378 + SHORT_NR_PORTS.
Proof.
  intros l H.
  apply (do_short_read_port_within_nr_ports Z (fun m => m) 0x378 0x0a 16) in H.
  - discriminate H.
  - vm_compute. discriminate.
  - reflexivity.
Defined.


End DriverExtra.
